(** * React async hooks: [useAsyncStateEffect], [useAsyncAction] and
      [useAsyncStatus]

    A shallow embedding of the hooks of [src/hooks] and the properties
    their specification states about them.

    The host framework is modelled as follows.
    - A state cell ([useState]) is a record field.  A setter call writes
      the field; when its argument is a function, React calls it with the
      previous content and stores what it returns, and so does the model.
      The cells after each setter call are kept in a log: without batching
      a render shows them.
    - An [async] function that awaits once is split at its [await]: the part
      before runs when the function is called, the part after runs when the
      awaited promise has settled.
    - A producer is an asynchronous function: calling it returns a promise,
      which later is fulfilled with a value or rejected with a value.
    - The reactions of a promise chain ([.then], [.catch], [.finally]) are
      jobs of their own: reactions of other chains, renders and calls can
      come in between.  The model lets the reactions of different chains
      run in any order, the order of the job queue being one of them. *)

From stdpp Require Import base option strings gmap.

Open Scope string_scope.

(** ** JavaScript values *)

(** The values that flow through the hooks.  [JError name message] is an
    instance of [Error] (or of a subclass, told apart by [name]).
    [JFunction] is a function.  [JOther] is any remaining value (number,
    symbol, array, plain object) on which [String(v)] returns, abstracted
    to an identity tag, the string returned and its truthiness.
    [JUnprintable] is an object on which [String(v)] throws [thrown] (an
    object without prototype, or with a [toString] that throws). *)
Inductive JsVal : Type :=
| JUndefined
| JNull
| JBool (b : bool)
| JStr (s : string)
| JError (name message : string)
| JFunction (id : nat) (rendering : string)
| JOther (id : nat) (rendering : string) (truthy : bool)
| JUnprintable (id : nat) (thrown : JsVal).

#[global] Instance JsVal_eq_dec : EqDecision JsVal.
Proof.
  unfold EqDecision, Decision. fix IH 1.
  decide equality; first [apply IH | exact (decide _)].
Defined.

(** What each function returns when React calls it with one argument, by
    identity tag: [setState(f)] stores [f(previous)], and [useState(f)]
    starts from [f()].  (A function that throws there makes the render
    throw, and React unmounts the component: no state is left.) *)
Class Functions : Type := call_function : nat -> JsVal -> JsVal.

(** Functions for the examples: each returns the string ["called"]. *)
Definition sample_functions : Functions := fun _ _ => JStr "called".


(** How a statement or an expression ends. *)
Inductive Completion (A : Type) : Type :=
| Normal (a : A)
| Throw (e : JsVal).
Arguments Normal {A} a.
Arguments Throw {A} e.

(** How a promise ends. *)
Inductive Settled (A : Type) : Type :=
| Fulfilled (a : A)
| Rejected (e : JsVal).
Arguments Fulfilled {A} a.
Arguments Rejected {A} e.

(** [err instanceof Error] *)
Definition instanceof_Error (v : JsVal) : bool :=
  match v with
  | JError _ _ => true
  | _ => false
  end.

(** [String(v)] *)
Definition js_String (v : JsVal) : Completion string :=
  match v with
  | JUndefined => Normal "undefined"
  | JNull => Normal "null"
  | JBool true => Normal "true"
  | JBool false => Normal "false"
  | JStr s => Normal s
  | JError name message =>
      Normal (if decide (name = "") then message
              else if decide (message = "") then name
              else name ++ ": " ++ message)
  | JFunction _ rendering => Normal rendering
  | JOther _ rendering _ => Normal rendering
  | JUnprintable _ thrown => Throw thrown
  end.

(** [new Error(message)] *)
Definition new_Error (message : string) : JsVal := JError "Error" message.

(** [e.message] of a structured error object; nothing for other values. *)
Definition message_of (v : JsVal) : option string :=
  match v with
  | JError _ message => Some message
  | _ => None
  end.

(** [v === null || v === undefined] *)
Definition is_nullish (v : JsVal) : bool :=
  match v with
  | JUndefined | JNull => true
  | _ => false
  end.

(** [a ?? b] *)
Definition nullish_coalesce (a b : JsVal) : JsVal :=
  if is_nullish a then b else a.

(** [!!v] *)
Definition to_boolean (v : JsVal) : bool :=
  match v with
  | JUndefined | JNull => false
  | JBool b => b
  | JStr s => if decide (s = "") then false else true
  | JError _ _ => true
  | JFunction _ _ => true
  | JOther _ _ truthy => truthy
  | JUnprintable _ _ => true
  end.

(** [Object.is(a, b)]: objects carry their identity in the tag. *)
Definition Object_is (a b : JsVal) : bool := bool_decide (a = b).

(** The content of a state cell after [setState(arg)], [prev] being its
    content before. *)
Definition setState_value `{!Functions} (arg prev : JsVal) : JsVal :=
  match arg with
  | JFunction id _ => call_function id prev
  | _ => arg
  end.

(** The first content of a state cell made by [useState(arg)]. *)
Definition useState_initial `{!Functions} (arg : JsVal) : JsVal :=
  match arg with
  | JFunction id _ => call_function id JUndefined
  | _ => arg
  end.

(** ** Effects: state cells and exceptions *)

Section Effects.
Context {St : Type}.

(** A piece of code that reads and writes the cells [St] and either
    completes normally or throws. *)
Definition Eff (A : Type) : Type := St -> St * Completion A.

Definition ret {A} (a : A) : Eff A := fun s => (s, Normal a).

Definition throw {A} (e : JsVal) : Eff A := fun s => (s, Throw e).

(** An expression that touches no cell. *)
Definition eval {A} (c : Completion A) : Eff A := fun s => (s, c).

Definition bind {A B} (m : Eff A) (k : A -> Eff B) : Eff B :=
  fun s =>
    match m s with
    | (s', Normal a) => k a s'
    | (s', Throw e) => (s', Throw e)
    end.

Definition modify (f : St -> St) : Eff unit := fun s => (f s, Normal tt).

(** [try { body } catch (err) { handler(err) }] *)
Definition try_catch {A} (body : Eff A) (handler : JsVal -> Eff A) : Eff A :=
  fun s =>
    match body s with
    | (s', Normal a) => (s', Normal a)
    | (s', Throw e) => handler e s'
    end.

(** [try { body } finally { cleanup }], for a [cleanup] without [return]:
    the completion of [body] stands unless [cleanup] throws. *)
Definition try_finally {A} (body : Eff A) (cleanup : Eff unit) : Eff A :=
  fun s =>
    match body s with
    | (s', c) =>
        match cleanup s' with
        | (s'', Normal _) => (s'', c)
        | (s'', Throw e) => (s'', Throw e)
        end
    end.

(** [await p] for a promise [p] that has settled. *)
Definition await {A} (p : Settled A) : Eff A :=
  match p with
  | Fulfilled v => ret v
  | Rejected e => throw e
  end.

(** The promise of an [async] function whose body ran to completion. *)
Definition async_result {A} (c : Completion A) : Settled A :=
  match c with
  | Normal a => Fulfilled a
  | Throw e => Rejected e
  end.

(** A promise derived from a settled one: running its reaction updates the
    cells and settles the derived promise. *)
Definition Reaction : Type := St -> St * Settled JsVal.

Definition settle_with (c : St * Completion JsVal) : St * Settled JsVal :=
  (c.1, async_result c.2).

(** [p.then(onFulfilled)] *)
Definition promise_then (onFulfilled : JsVal -> Eff JsVal) (p : Reaction)
  : Reaction :=
  fun s =>
    match p s with
    | (s', Fulfilled v) => settle_with (onFulfilled v s')
    | (s', Rejected e) => (s', Rejected e)
    end.

(** [p.catch(onRejected)] *)
Definition promise_catch (onRejected : JsVal -> Eff JsVal) (p : Reaction)
  : Reaction :=
  fun s =>
    match p s with
    | (s', Fulfilled v) => (s', Fulfilled v)
    | (s', Rejected e) => settle_with (onRejected e s')
    end.

(** [p.finally(onFinally)]: the settlement of [p] passes through unless
    [onFinally] throws. *)
Definition promise_finally (onFinally : Eff JsVal) (p : Reaction) : Reaction :=
  fun s =>
    match p s with
    | (s', r) =>
        match onFinally s' with
        | (s'', Normal _) => (s'', r)
        | (s'', Throw e) => (s'', Rejected e)
        end
    end.

(** A promise that has settled as [r]. *)
Definition settled_as (r : Settled JsVal) : Reaction := fun s => (s, r).
End Effects.

Declare Scope eff_scope.
Delimit Scope eff_scope with eff.
Notation "x <- m ;; k" := (bind m (fun x => k))
  (at level 20, m at level 99, k at level 200, only parsing) : eff_scope.
Notation "m ;; k" := (bind m (fun _ => k))
  (at level 100, k at level 200, right associativity, only parsing) : eff_scope.

(** ** [useAsyncStateEffect] (src/hooks/useAsyncStateEffect.jsx) *)

Module AsyncStateEffect.

(** The [options] argument.  A property that is absent reads as
    [undefined]: [JUndefined] for [initialValue], [None] for
    [loadingTrueAtStart]. *)
Record Options : Type := {
  opt_initialValue : JsVal;
  opt_loadingTrueAtStart : option bool
}.

(** The destructuring of [options] at the top of the hook.  [None] is an
    [options] argument that is missing or [null]: a missing one takes the
    default parameter [{initialValue: undefined, loadingTrueAtStart: true}],
    a [null] one is replaced by [{}] and the destructuring default applies. *)
Definition initialValue (options : option Options) : JsVal :=
  match options with
  | None => JUndefined
  | Some o => opt_initialValue o
  end.

Definition loadingTrueAtStart (options : option Options) : bool :=
  match options with
  | None => true
  | Some o => default true (opt_loadingTrueAtStart o)
  end.

(** The five state cells. *)
Record State : Type := {
  value : JsVal;
  isLoading : bool;
  isError : bool;
  error : JsVal;
  isRefreshing : bool
}.

(** The cells together with the log of what they were after each setter
    call, newest first. *)
Record Screen : Type := {
  now : State;
  shown : list State
}.

(** What the [.catch] reaction hands to [setError] for a caught [err], or
    what it throws on the way: the two branches of its [instanceof] test,
    [String(err)] being evaluated in the second. *)
Definition stored_by_catch (err : JsVal) : Completion JsVal :=
  if instanceof_Error err then Normal err
  else match js_String err with
       | Normal message => Normal (new_Error message)
       | Throw thrown => Throw thrown
       end.

Inductive FetchKind : Type := Auto | Manual.

#[global] Instance FetchKind_eq_dec : EqDecision FetchKind.
Proof. solve_decision. Defined.

(** A call of [func] whose reactions have not all run yet, with the
    [initialValue] they have in scope. *)
Record Fetch : Type := {
  kind : FetchKind;
  captured_initialValue : JsVal
}.

(** Where the chain [func().then(..).catch(..).finally(..)] of a call
    stands once the promise of [func] has settled: the reaction that runs
    next, and how the promise it reacts to has settled. *)
Inductive Stage : Type :=
| ThenNext (p0 : Settled JsVal)
| CatchNext (p1 : Settled JsVal)
| FinallyNext (p2 : Settled JsVal).

(** A mounted hook: the cells and their log, the arguments of the latest
    render, the calls of [func] in flight (numbered in the order they were
    made), the stage of those whose promise has settled, how many calls
    were made so far, and the promises of [refresh()] that have settled. *)
Record Hook : Type := {
  cells : State;
  seen : list State;
  deps : list JsVal;
  options : option Options;
  in_flight : gmap nat Fetch;
  reached : gmap nat Stage;
  calls : nat;
  refreshed : gmap nat (Settled JsVal)
}.

Definition screen (h : Hook) : Screen := {| now := cells h; shown := seen h |}.

(** React's comparison of a dependency array with the previous one:
    position by position with [Object.is], over the positions both arrays
    have. *)
Fixpoint deps_equal (prev next : list JsVal) : bool :=
  match prev, next with
  | p :: prev', n :: next' => Object_is p n && deps_equal prev' next'
  | _, _ => true
  end.

Inductive Event : Type :=
| Render (ds : list JsVal) (opts : option Options)
| Refresh
| Settle (i : nat) (r : Settled JsVal)
| Resolve (i : nat) (r : Settled JsVal)
| React (i : nat).

(** The events at which reactions run. *)
Definition is_settlement (ev : Event) : bool :=
  match ev with
  | Settle _ _ | React _ => true
  | _ => false
  end.

(** No reaction runs in [evs]. *)
Definition quiet (evs : list Event) : bool :=
  forallb (fun ev => negb (is_settlement ev)) evs.



(** The [.catch] reaction can store the value that [ev] rejects with, if
    it rejects. *)
Definition storable (r : Settled JsVal) : bool :=
  match r with
  | Fulfilled _ => true
  | Rejected err =>
      match stored_by_catch err with
      | Normal _ => true
      | Throw _ => false
      end
  end.

Definition storable_event (ev : Event) : bool :=
  match ev with
  | Settle _ r | Resolve _ r => storable r
  | _ => true
  end.

Definition stage_storable (st : Stage) : bool :=
  match st with
  | ThenNext p | CatchNext p => storable p
  | FinallyNext _ => true
  end.

(** [isError] says whether [error] holds something. *)
Definition error_consistent (s : State) : Prop :=
  isError s = bool_decide (error s ≠ JNull).

(** [isError] is [false] and [error] is [null], or [isError] is [true] and
    [error] is an instance of [Error]. *)
Definition error_shape (s : State) : Prop :=
  (isError s = false ∧ error s = JNull) ∨
  (isError s = true ∧ instanceof_Error (error s) = true).

(** The shape of [error] holds and no [.catch] reaction that is still to
    run can fail to store what it caught. *)
Definition error_kept (h : Hook) : Prop :=
  error_shape (cells h) ∧
  ∀ i st, reached h !! i = Some st → stage_storable st = true.

Section Hook.
Context `{!Functions}.

(** The [useState] initialisers: what the first render shows. *)
Definition first_render (options : option Options) : State :=
  {| value := useState_initial (initialValue options);
     isLoading := loadingTrueAtStart options;
     isError := false;
     error := JNull;
     isRefreshing := false |}.

(** A setter call: the cell is written and the new cells are logged. *)
Definition write (f : State -> State) : Eff unit :=
  modify (fun sc => {| now := f (now sc); shown := f (now sc) :: shown sc |}).

Definition setValue (v : JsVal) : Eff unit :=
  write (fun s => {| value := setState_value v (value s);
                     isLoading := isLoading s;
                     isError := isError s; error := error s;
                     isRefreshing := isRefreshing s |}).

Definition setIsLoading (b : bool) : Eff unit :=
  write (fun s => {| value := value s; isLoading := b;
                     isError := isError s; error := error s;
                     isRefreshing := isRefreshing s |}).

Definition setIsError (b : bool) : Eff unit :=
  write (fun s => {| value := value s; isLoading := isLoading s;
                     isError := b; error := error s;
                     isRefreshing := isRefreshing s |}).

(** [setError] is only called with [null] and with instances of [Error],
    which are no functions. *)
Definition setError (e : JsVal) : Eff unit :=
  write (fun s => {| value := value s; isLoading := isLoading s;
                     isError := isError s; error := setState_value e (error s);
                     isRefreshing := isRefreshing s |}).

Definition setIsRefreshing (b : bool) : Eff unit :=
  write (fun s => {| value := value s; isLoading := isLoading s;
                     isError := isError s; error := error s;
                     isRefreshing := b |}).

Local Open Scope eff_scope.

(** The [.then] reaction, the same in [refresh] and in the effect.
    [init] is the [initialValue] in scope of the closure. *)
Definition onFulfilled (init : JsVal) (result : JsVal) : Eff JsVal :=
  setValue (nullish_coalesce result init) ;;
  setIsError false ;;
  setError JNull ;;
  ret JUndefined.

(** The [.catch] reaction, the same in [refresh] and in the effect. *)
Definition onRejected (err : JsVal) : Eff JsVal :=
  setIsError true ;;
  (if instanceof_Error err
   then setError err
   else message <- eval (js_String err) ;;
        setError (new_Error message)) ;;
  ret JUndefined.

(** The [.finally] reaction of [refresh]. *)
Definition refresh_onFinally : Eff JsVal :=
  setIsLoading false ;;
  setIsRefreshing false ;;
  ret JUndefined.

(** The [.finally] reaction of the effect. *)
Definition effect_onFinally : Eff JsVal :=
  setIsLoading false ;;
  ret JUndefined.

(** [refresh], up to the call of [func]. *)
Definition refresh_start : Eff unit :=
  setIsRefreshing true ;;
  setIsLoading true.

(** The effect, up to the call of [func]. *)
Definition effect_start : Eff unit :=
  setIsLoading true.

(** The three reaction jobs of a chain, each given how the promise it
    reacts to has settled. *)
Definition then_job (init : JsVal) (p0 : Settled JsVal) : Reaction :=
  promise_then (onFulfilled init) (settled_as p0).

Definition catch_job (p1 : Settled JsVal) : Reaction :=
  promise_catch onRejected (settled_as p1).

Definition finally_job (k : FetchKind) (p2 : Settled JsVal) : Reaction :=
  promise_finally
    match k with
    | Auto => effect_onFinally
    | Manual => refresh_onFinally
    end
    (settled_as p2).

(** [refresh] from its [await] on: how the promise that [refresh()]
    returned settles, the awaited chain having settled as [p3]. *)
Definition refresh_await (p3 : Settled JsVal) : Settled JsVal :=
  async_result ((await p3 ;; ret JUndefined) tt).2.

(** [func().then(..).catch(..).finally(..)] of [refresh] and of the effect,
    the reactions running back to back once the promise of [func] has
    settled as [r]. *)
Definition refresh_chain (init : JsVal) (r : Settled JsVal) : Reaction :=
  promise_finally refresh_onFinally
    (promise_catch onRejected
       (promise_then (onFulfilled init) (settled_as r))).

Definition effect_chain (init : JsVal) (r : Settled JsVal) : Reaction :=
  promise_finally effect_onFinally
    (promise_catch onRejected
       (promise_then (onFulfilled init) (settled_as r))).

(** The same on the cells alone, the log left out. *)
Definition on_state {A} (m : Screen -> Screen * A) (s : State) : State * A :=
  let out := m {| now := s; shown := [] |} in (now out.1, out.2).

Definition refresh_call : State -> State * Completion unit :=
  on_state refresh_start.

Definition effect_call : State -> State * Completion unit :=
  on_state effect_start.

Definition refresh_resume (init : JsVal) (r : Settled JsVal) (s : State)
  : State * Settled JsVal :=
  let out := on_state (refresh_chain init r) s in
  (out.1, refresh_await out.2).

Definition effect_resume (init : JsVal) (r : Settled JsVal) (s : State) : State :=
  (on_state (effect_chain init r) s).1.

(** The reactions of fetch [f] run back to back, its promise having
    settled as [r]: the new cells and, for a [refresh], how the promise it
    returned settles. *)
Definition resume (f : Fetch) (r : Settled JsVal) (s : State)
  : State * option (Settled JsVal) :=
  match kind f with
  | Auto => (effect_resume (captured_initialValue f) r s, None)
  | Manual =>
      let out := refresh_resume (captured_initialValue f) r s in
      (out.1, Some out.2)
  end.

(** *** The hook instance over time *)

(** Run [before], then call [func]. *)
Definition launch (k : FetchKind) (before : Eff unit) (h : Hook) : Hook :=
  let sc := (before (screen h)).1 in
  {| cells := now sc;
     seen := shown sc;
     deps := deps h;
     options := options h;
     in_flight :=
       <[calls h := {| kind := k;
                       captured_initialValue := initialValue (options h) |}]>
         (in_flight h);
     reached := reached h;
     calls := S (calls h);
     refreshed := refreshed h |}.

(** The first render: no call of [func] yet. *)
Definition create (ds : list JsVal) (opts : option Options) : Hook :=
  {| cells := first_render opts;
     seen := [];
     deps := ds;
     options := opts;
     in_flight := ∅;
     reached := ∅;
     calls := 0;
     refreshed := ∅ |}.

(** Mounting: the first render, then the effect runs. *)
Definition mount (ds : list JsVal) (opts : option Options) : Hook :=
  launch Auto effect_start (create ds opts).

(** A later render with arguments [ds] and [opts]: the effect runs again
    when [ds] differs from the dependencies of the previous render. *)
Definition rerender (ds : list JsVal) (opts : option Options) (h : Hook)
  : Hook :=
  let h' := {| cells := cells h; seen := seen h; deps := ds; options := opts;
               in_flight := in_flight h; reached := reached h;
               calls := calls h; refreshed := refreshed h |} in
  if deps_equal (deps h) ds then h' else launch Auto effect_start h'.

(** A call of the [refresh] of the latest render. *)
Definition refresh (h : Hook) : Hook := launch Manual refresh_start h.

(** The promise of call [i] of [func] settles as [r]: its [.then] reaction
    is due.  A promise settles once. *)
Definition resolve (i : nat) (r : Settled JsVal) (h : Hook) : Hook :=
  match in_flight h !! i, reached h !! i with
  | Some _, None =>
      {| cells := cells h; seen := seen h; deps := deps h;
         options := options h; in_flight := in_flight h;
         reached := <[i := ThenNext r]> (reached h);
         calls := calls h; refreshed := refreshed h |}
  | _, _ => h
  end.

(** A reaction has run and left [out]; the next one of call [i] is due. *)
Definition advance (i : nat) (out : Screen * Settled JsVal)
    (next : Settled JsVal -> Stage) (h : Hook) : Hook :=
  {| cells := now out.1; seen := shown out.1; deps := deps h;
     options := options h; in_flight := in_flight h;
     reached := <[i := next out.2]> (reached h);
     calls := calls h; refreshed := refreshed h |}.

(** The [.finally] reaction of call [i] has run and left [out]: the chain
    is over, and for a [refresh] the awaiting [refresh] resumes (the jobs
    between the two run no code of the hook). *)
Definition finish (i : nat) (k : FetchKind) (out : Screen * Settled JsVal)
    (h : Hook) : Hook :=
  {| cells := now out.1; seen := shown out.1; deps := deps h;
     options := options h; in_flight := delete i (in_flight h);
     reached := delete i (reached h);
     calls := calls h;
     refreshed :=
       match k with
       | Auto => refreshed h
       | Manual => <[i := refresh_await out.2]> (refreshed h)
       end |}.

(** The reaction of call [i] that is due runs. *)
Definition react (i : nat) (h : Hook) : Hook :=
  match in_flight h !! i, reached h !! i with
  | Some f, Some (ThenNext p0) =>
      advance i (then_job (captured_initialValue f) p0 (screen h)) CatchNext h
  | Some f, Some (CatchNext p1) =>
      advance i (catch_job p1 (screen h)) FinallyNext h
  | Some f, Some (FinallyNext p2) =>
      finish i (kind f) (finally_job (kind f) p2 (screen h)) h
  | _, _ => h
  end.

(** The promise of call [i] settles as [r] in a task of its own: its three
    reactions run back to back.  (For a call whose promise had settled
    before, [r] comes too late and the reactions still due run.) *)
Definition settle (i : nat) (r : Settled JsVal) (h : Hook) : Hook :=
  react i (react i (react i (resolve i r h))).

Definition step (h : Hook) (ev : Event) : Hook :=
  match ev with
  | Render ds opts => rerender ds opts h
  | Refresh => refresh h
  | Settle i r => settle i r h
  | Resolve i r => resolve i r h
  | React i => react i h
  end.

Definition run (h : Hook) (evs : list Event) : Hook := foldl step h evs.

(** Calls are numbered below [calls]; a raised [isLoading] has a call in
    flight behind it, a raised [isRefreshing] a call of [refresh]. *)
Definition flags_backed (h : Hook) : Prop :=
  (∀ i, is_Some (in_flight h !! i) → i < calls h) ∧
  (isLoading (cells h) = true → ∃ i, is_Some (in_flight h !! i)) ∧
  (isRefreshing (cells h) = true →
   ∃ i f, in_flight h !! i = Some f ∧ kind f = Manual).

End Hook.

End AsyncStateEffect.

(** ** [useAsyncAction] (src/hooks/useAsyncAction.js) *)

Module AsyncAction.

(** A callback of [options], as the hook sees it: called, it returns or it
    throws. *)
Record Options : Type := {
  onComplete : option (Completion unit);
  onError : option (JsVal -> Completion unit)
}.

(** The three state cells; [isError] is derived from [error] at each
    render. *)
Record State : Type := {
  data : JsVal;
  error : JsVal;
  isLoading : bool
}.

Definition isError (s : State) : bool := to_boolean (error s).

(** The [useState] initialisers. *)
Definition first_render : State :=
  {| data := JNull; error := JNull; isLoading := false |}.

(** What [run] does to the outside: console output and callback calls, with
    their arguments. *)
Inductive Call : Type :=
| console_error (arg : JsVal)
| called_onComplete
| called_onError (arg : JsVal).

(** The cells together with the calls made so far, oldest first. *)
Record World : Type := {
  cells : State;
  trace : list Call
}.

Section Hook.
Context `{!Functions}.

Definition on_cells (f : State -> State) : Eff unit :=
  modify (fun w => {| cells := f (cells w); trace := trace w |}).

Definition setData (v : JsVal) : Eff unit :=
  on_cells (fun s => {| data := setState_value v (data s); error := error s;
                        isLoading := isLoading s |}).

Definition setError (e : JsVal) : Eff unit :=
  on_cells (fun s => {| data := data s; error := setState_value e (error s);
                        isLoading := isLoading s |}).

Definition setIsLoading (b : bool) : Eff unit :=
  on_cells (fun s => {| data := data s; error := error s; isLoading := b |}).

Definition record (c : Call) : Eff unit :=
  modify (fun w => {| cells := cells w; trace := trace w ++ [c] |}).

(** [options?.onComplete] and [options?.onError]: [undefined] when [options]
    is missing or the property is. *)
Definition onComplete_of (options : option Options) : option (Completion unit) :=
  options ≫= onComplete.

Definition onError_of (options : option Options)
  : option (JsVal -> Completion unit) :=
  options ≫= onError.

(** [options?.onComplete?.()] *)
Definition call_onComplete (options : option Options) : Eff unit :=
  match onComplete_of options with
  | None => ret tt
  | Some outcome => bind (record called_onComplete) (fun _ w => (w, outcome))
  end.

(** [options?.onError?.(arg)] *)
Definition call_onError (options : option Options) (arg : JsVal) : Eff unit :=
  match onError_of options with
  | None => ret tt
  | Some cb => bind (record (called_onError arg)) (fun _ w => (w, cb arg))
  end.

(** The [run] of one render closes over the [error] cell as that render
    read it, and over [options]. *)
Record Closure : Type := {
  closure_error : JsVal;
  closure_options : option Options
}.

Definition render (options : option Options) (s : State) : Closure :=
  {| closure_error := error s; closure_options := options |}.

(** The object [{ data, error }] that [run] returns. *)
Record Result : Type := {
  result_data : JsVal;
  result_error : JsVal
}.

Local Open Scope eff_scope.

(** [run], up to the call of [fn]. *)
Definition run_call : Eff unit :=
  setIsLoading true ;;
  setError JNull.

(** [run] from its [await] on, the promise of [fn(...args)] having settled
    as [r] (a [fn] that throws before it returns a promise reaches the
    [catch] block the same way as one whose promise is rejected). *)
Definition run_resume (c : Closure) (r : Settled JsVal) : Eff Result :=
  try_finally
    (try_catch
       (result <- await r ;;
        setData result ;;
        call_onComplete (closure_options c) ;;
        ret {| result_data := result; result_error := JNull |})
       (fun err =>
          record (console_error err) ;;
          (if instanceof_Error err
           then setError err
           else setError (new_Error "Unknown error occurred.")) ;;
          call_onError (closure_options c) (closure_error c) ;;
          ret {| result_data := JNull; result_error := err |}))
    (setIsLoading false).

(** One whole invocation of the [run] of closure [c], nothing else
    happening in between: the world afterwards and how the promise that
    [run(...)] returned settles. *)
Definition run (c : Closure) (r : Settled JsVal) (w : World)
  : World * Settled Result :=
  let '(w1, _) := run_call w in
  let '(w2, out) := run_resume c r w1 in
  (w2, async_result out).

(** What the [catch] block of [run] hands to [setError] for a caught [err]:
    the two branches of its [instanceof] test. *)
Definition stored_error (err : JsVal) : JsVal :=
  if instanceof_Error err then err else new_Error "Unknown error occurred.".

(** The world once an invocation of [run] that started in [w] is over, [d]
    being the [data] and [e] the [error] then, and [cs] the calls it made. *)
Definition after (w : World) (d e : JsVal) (cs : list Call) : World :=
  {| cells := {| data := d; error := e; isLoading := false |};
     trace := trace w ++ cs |}.

(** The call of [onError] that the [catch] block of the [run] of closure
    [c] makes: none when [options] or its [onError] is missing. *)
Definition onError_calls (c : Closure) : list Call :=
  match onError_of (closure_options c) with
  | None => []
  | Some _ => [called_onError (closure_error c)]
  end.

(** *** The hook instance over time *)

(** What happens to a mounted hook: some [run] is invoked, or an
    invocation made by the [run] of closure [c] resumes because the promise
    of [fn] settled as [r].  Invocations may overlap. *)
Inductive Event : Type :=
| Invoke
| Resume (c : Closure) (r : Settled JsVal).

Definition step (w : World) (ev : Event) : World :=
  match ev with
  | Invoke => (run_call w).1
  | Resume c r => (run_resume c r w).1
  end.

Definition play (w : World) (evs : list Event) : World := foldl step w evs.

(** The hook after its first render. *)
Definition mounted : World := {| cells := first_render; trace := [] |}.

End Hook.

End AsyncAction.

(** ** [useAsyncStatus] (src/hooks/useAsyncStatus.jsx) *)

Module AsyncStatus.

(** The one state cell. *)
Record State : Type := {
  isLoading : bool
}.

(** The [useState] initialiser. *)
Definition first_render : State := {| isLoading := false |}.

Definition setIsLoading (b : bool) : Eff unit :=
  modify (fun _ => {| isLoading := b |}).

Local Open Scope eff_scope.

(** [run], up to the call of [fn]. *)
Definition run_call : Eff unit :=
  setIsLoading true.

(** [run] from its [await] on, the promise of [fn(...args)] having settled
    as [r]: there is no [catch] block. *)
Definition run_resume (r : Settled JsVal) : Eff JsVal :=
  try_finally
    (result <- await r ;;
     ret result)
    (setIsLoading false).

(** One whole invocation of [run], nothing else happening in between. *)
Definition run (r : Settled JsVal) (s : State) : State * Settled JsVal :=
  let '(s1, _) := run_call s in
  let '(s2, out) := run_resume r s1 in
  (s2, async_result out).

End AsyncStatus.


(** * Properties of [useAsyncStateEffect] *)

Module AsyncStateEffectFacts.
Import AsyncStateEffect.

(** Case analysis on a caught value, down to what [String] needs. *)
Local Ltac case_value err := destruct err as [| |[]| | | | |].

Section Facts.
Context `{!Functions}.

(** ** What the reactions of one call, run back to back, do to the cells *)

Section Reactions.
Variables (init : JsVal) (s : State).

Lemma effect_resume_fulfilled (result : JsVal) :
  effect_resume init (Fulfilled result) s =
  {| value := setState_value (nullish_coalesce result init) (value s);
     isLoading := false; isError := false; error := JNull;
     isRefreshing := isRefreshing s |}.
Proof. reflexivity. Qed.

Lemma effect_resume_rejected (err : JsVal) :
  effect_resume init (Rejected err) s =
  {| value := value s; isLoading := false; isError := true;
     error := match stored_by_catch err with
              | Normal e => e
              | Throw _ => error s
              end;
     isRefreshing := isRefreshing s |}.
Proof. by case_value err. Qed.

Lemma refresh_resume_fulfilled (result : JsVal) :
  refresh_resume init (Fulfilled result) s =
  ({| value := setState_value (nullish_coalesce result init) (value s);
      isLoading := false; isError := false; error := JNull;
      isRefreshing := false |},
   Fulfilled JUndefined).
Proof. reflexivity. Qed.

Lemma refresh_resume_rejected (err : JsVal) :
  refresh_resume init (Rejected err) s =
  ({| value := value s; isLoading := false; isError := true;
      error := match stored_by_catch err with
               | Normal e => e
               | Throw _ => error s
               end;
      isRefreshing := false |},
   match stored_by_catch err with
   | Normal _ => Fulfilled JUndefined
   | Throw thrown => Rejected thrown
   end).
Proof. by case_value err. Qed.

End Reactions.

(** What the [.catch] reaction stores is an instance of [Error]. *)
Lemma stored_by_catch_Error (err e : JsVal) :
  stored_by_catch err = Normal e →
  instanceof_Error e = true ∧ e ≠ JNull ∧ setState_value e = λ _, e.
Proof. case_value err; cbn; intros [= <-]; done. Qed.

Lemma resume_auto (f : Fetch) (r : Settled JsVal) (s : State) :
  kind f = Auto →
  resume f r s = (effect_resume (captured_initialValue f) r s, None).
Proof. unfold resume. by intros ->. Qed.

Lemma resume_manual (f : Fetch) (r : Settled JsVal) (s : State) :
  kind f = Manual →
  resume f r s =
  ((refresh_resume (captured_initialValue f) r s).1,
   Some (refresh_resume (captured_initialValue f) r s).2).
Proof. unfold resume. by intros ->. Qed.

(** ** The reaction jobs, one by one *)

Lemma then_job_rejected (init err : JsVal) (sc : Screen) :
  then_job init (Rejected err) sc = (sc, Rejected err).
Proof. reflexivity. Qed.

Lemma then_job_fulfilled (init result : JsVal) (sc : Screen) :
  (then_job init (Fulfilled result) sc).2 = Fulfilled JUndefined ∧
  now (then_job init (Fulfilled result) sc).1 =
  {| value := setState_value (nullish_coalesce result init) (value (now sc));
     isLoading := isLoading (now sc); isError := false; error := JNull;
     isRefreshing := isRefreshing (now sc) |}.
Proof. done. Qed.

Lemma catch_job_fulfilled (v : JsVal) (sc : Screen) :
  catch_job (Fulfilled v) sc = (sc, Fulfilled v).
Proof. reflexivity. Qed.

Lemma catch_job_rejected (err : JsVal) (sc : Screen) :
  (catch_job (Rejected err) sc).2 =
    match stored_by_catch err with
    | Normal _ => Fulfilled JUndefined
    | Throw thrown => Rejected thrown
    end ∧
  now (catch_job (Rejected err) sc).1 =
  {| value := value (now sc); isLoading := isLoading (now sc);
     isError := true;
     error := match stored_by_catch err with
              | Normal e => e
              | Throw _ => error (now sc)
              end;
     isRefreshing := isRefreshing (now sc) |}.
Proof. by case_value err. Qed.

Lemma finally_job_spec (k : FetchKind) (p2 : Settled JsVal) (sc : Screen) :
  (finally_job k p2 sc).2 = p2 ∧
  now (finally_job k p2 sc).1 =
  {| value := value (now sc); isLoading := false;
     isError := isError (now sc); error := error (now sc);
     isRefreshing := match k with
                     | Auto => isRefreshing (now sc)
                     | Manual => false
                     end |}.
Proof. by destruct k. Qed.

(** The flags are the business of [.finally] alone. *)
Lemma then_job_flags (init : JsVal) (p0 : Settled JsVal) (sc : Screen) :
  isLoading (now (then_job init p0 sc).1) = isLoading (now sc) ∧
  isRefreshing (now (then_job init p0 sc).1) = isRefreshing (now sc).
Proof. by destruct p0. Qed.

Lemma catch_job_flags (p1 : Settled JsVal) (sc : Screen) :
  isLoading (now (catch_job p1 sc).1) = isLoading (now sc) ∧
  isRefreshing (now (catch_job p1 sc).1) = isRefreshing (now sc).
Proof. destruct p1 as [v|err]; [done|by case_value err]. Qed.

(** ** One event of a mounted hook *)

Lemma resolve_pending (h : Hook) (i : nat) (f : Fetch) (r : Settled JsVal) :
  in_flight h !! i = Some f → reached h !! i = None →
  resolve i r h =
  {| cells := cells h; seen := seen h; deps := deps h; options := options h;
     in_flight := in_flight h; reached := <[i := ThenNext r]> (reached h);
     calls := calls h; refreshed := refreshed h |}.
Proof. unfold resolve. by intros -> ->. Qed.

Lemma resolve_settled (h : Hook) (i : nat) (st : Stage) (r : Settled JsVal) :
  reached h !! i = Some st → resolve i r h = h.
Proof. unfold resolve. intros ->. by destruct (in_flight h !! i). Qed.

Lemma react_then (h : Hook) (i : nat) (f : Fetch) (p0 : Settled JsVal) :
  in_flight h !! i = Some f → reached h !! i = Some (ThenNext p0) →
  react i h =
  advance i (then_job (captured_initialValue f) p0 (screen h)) CatchNext h.
Proof. unfold react. by intros -> ->. Qed.

Lemma react_catch (h : Hook) (i : nat) (f : Fetch) (p1 : Settled JsVal) :
  in_flight h !! i = Some f → reached h !! i = Some (CatchNext p1) →
  react i h = advance i (catch_job p1 (screen h)) FinallyNext h.
Proof. unfold react. by intros -> ->. Qed.

Lemma react_finally (h : Hook) (i : nat) (f : Fetch) (p2 : Settled JsVal) :
  in_flight h !! i = Some f → reached h !! i = Some (FinallyNext p2) →
  react i h = finish i (kind f) (finally_job (kind f) p2 (screen h)) h.
Proof. unfold react. by intros -> ->. Qed.

Lemma react_gone (h : Hook) (i : nat) :
  in_flight h !! i = None → react i h = h.
Proof. unfold react. by intros ->. Qed.

Lemma react_not_due (h : Hook) (i : nat) :
  reached h !! i = None → react i h = h.
Proof. unfold react. intros ->. by destruct (in_flight h !! i). Qed.

Lemma advance_reached (i : nat) (out : Screen * Settled JsVal)
    (next : Settled JsVal → Stage) (h : Hook) :
  reached (advance i out next h) !! i = Some (next out.2).
Proof. apply lookup_insert_eq. Qed.

Lemma finish_gone (i : nat) (k : FetchKind) (out : Screen * Settled JsVal)
    (h : Hook) :
  in_flight (finish i k out h) !! i = None.
Proof. apply lookup_delete_eq. Qed.

(** [settle] on a call whose promise was pending is what the reactions
    run back to back do. *)
Lemma settle_pending (h : Hook) (i : nat) (f : Fetch) (r : Settled JsVal) :
  in_flight h !! i = Some f → reached h !! i = None →
  cells (settle i r h) = (resume f r (cells h)).1 ∧
  refreshed (settle i r h) =
    match (resume f r (cells h)).2 with
    | Some p => <[i := p]> (refreshed h)
    | None => refreshed h
    end.
Proof.
  intros Hi Hr. unfold settle. rewrite (resolve_pending h i f r Hi Hr).
  match goal with
  | |- context [react i (react i (react i ?h0))] =>
      rewrite (react_then h0 i f r Hi (lookup_insert_eq _ _ _))
  end.
  match goal with
  | |- context [react i (react i ?h1)] =>
      rewrite (react_catch h1 i f _ Hi (advance_reached _ _ _ _))
  end.
  match goal with
  | |- context [react i ?h2] =>
      rewrite (react_finally h2 i f _ Hi (advance_reached _ _ _ _))
  end.
  unfold resume.
  destruct (kind f), r as [result|err];
    [|case_value err| |case_value err]; done.
Qed.

Lemma settle_cells (h : Hook) (i : nat) (f : Fetch) (r : Settled JsVal) :
  in_flight h !! i = Some f → reached h !! i = None →
  cells (settle i r h) = (resume f r (cells h)).1.
Proof. intros Hi Hr. apply (settle_pending h i f r Hi Hr). Qed.

(** ** What an event about one call leaves alone *)

Lemma resolve_frame (h : Hook) (i : nat) (r : Settled JsVal) :
  cells (resolve i r h) = cells h ∧ seen (resolve i r h) = seen h ∧
  in_flight (resolve i r h) = in_flight h ∧
  refreshed (resolve i r h) = refreshed h ∧
  calls (resolve i r h) = calls h ∧
  ∀ j, j ≠ i → reached (resolve i r h) !! j = reached h !! j.
Proof.
  unfold resolve.
  destruct (in_flight h !! i) as [f|]; [|done].
  destruct (reached h !! i) as [st|]; [done|]. cbn. split_and!; [done..|].
  intros j Hne. by rewrite lookup_insert_ne.
Qed.

Lemma react_frame (h : Hook) (i j : nat) :
  j ≠ i →
  in_flight (react i h) !! j = in_flight h !! j ∧
  reached (react i h) !! j = reached h !! j ∧
  refreshed (react i h) !! j = refreshed h !! j.
Proof.
  intros Hne. unfold react.
  destruct (in_flight h !! i) as [f|]; [|done].
  destruct (reached h !! i) as [[p|p|p]|]; [..|done]; cbn.
  - by rewrite lookup_insert_ne.
  - by rewrite lookup_insert_ne.
  - rewrite !lookup_delete_ne by done.
    destruct (kind f); [done|]. by rewrite lookup_insert_ne.
Qed.


Lemma settle_frame (h : Hook) (i j : nat) (r : Settled JsVal) :
  j ≠ i →
  in_flight (settle i r h) !! j = in_flight h !! j ∧
  reached (settle i r h) !! j = reached h !! j ∧
  refreshed (settle i r h) !! j = refreshed h !! j.
Proof.
  intros Hne. unfold settle.
  destruct (resolve_frame h i r) as (_ & _ & Hf & Hp & _ & Hr).
  set (h0 := resolve i r h) in *.
  destruct (react_frame h0 i j Hne) as (Hf1 & Hr1 & Hp1).
  destruct (react_frame (react i h0) i j Hne) as (Hf2 & Hr2 & Hp2).
  destruct (react_frame (react i (react i h0)) i j Hne) as (Hf3 & Hr3 & Hp3).
  rewrite Hf3, Hf2, Hf1, Hf, Hr3, Hr2, Hr1, (Hr j Hne), Hp3, Hp2, Hp1, Hp.
  done.
Qed.

Lemma settle_in_flight (h : Hook) (i j : nat) (r : Settled JsVal) :
  i ≠ j → in_flight (settle i r h) !! j = in_flight h !! j.
Proof. intros Hne. by apply settle_frame. Qed.







(** ** The promise of [refresh()] *)


(** ** What a settlement writes *)

Lemma settle_fulfilled_cells (h : Hook) (i : nat) (f : Fetch) (result : JsVal) :
  in_flight h !! i = Some f → reached h !! i = None →
  let s := cells (settle i (Fulfilled result) h) in
  value s =
    setState_value (nullish_coalesce result (captured_initialValue f))
      (value (cells h)) ∧
  isError s = false ∧ error s = JNull.
Proof.
  intros Hi Hr. cbn zeta. rewrite (settle_cells h i f _ Hi Hr).
  destruct (kind f) eqn:Hk.
  - by rewrite (resume_auto f _ _ Hk).
  - by rewrite (resume_manual f _ _ Hk).
Qed.

Lemma settle_rejected_cells (h : Hook) (i : nat) (f : Fetch) (err : JsVal) :
  in_flight h !! i = Some f → reached h !! i = None →
  let s := cells (settle i (Rejected err) h) in
  value s = value (cells h) ∧
  isError s = true ∧
  error s = match stored_by_catch err with
            | Normal e => e
            | Throw _ => error (cells h)
            end.
Proof.
  intros Hi Hr. cbn zeta. rewrite (settle_cells h i f _ Hi Hr).
  destruct (kind f) eqn:Hk.
  - by rewrite (resume_auto f _ _ Hk), effect_resume_rejected.
  - by rewrite (resume_manual f _ _ Hk), refresh_resume_rejected.
Qed.


(** C5: a rejected producer, in the effect and in [refresh] alike, leaves
    [value] as it was, at the settlement and over the whole attempt (the
    call followed by its failure); the effect leaves [isRefreshing] alone
    as well. *)
Theorem failure_keeps_value (init err : JsVal) (s : State) :
  value (effect_resume init (Rejected err) s) = value s ∧
  isRefreshing (effect_resume init (Rejected err) s) = isRefreshing s ∧
  value (refresh_resume init (Rejected err) s).1 = value s ∧
  value (effect_resume init (Rejected err) (effect_call s).1) = value s ∧
  value (refresh_resume init (Rejected err) (refresh_call s).1).1 = value s.
Proof.
  rewrite !effect_resume_rejected, !refresh_resume_rejected.
  by repeat split.
Qed.

(** C3, amended: of two calls in flight whose promises settle in tasks of
    their own (the reactions of the first have run when the second
    settles), whichever was made first, the one that settles last has its
    reactions run on the cells the other left, with no guard: [isError] is
    the one it writes, [error] too (unless [String] throws on what it was
    rejected with), and so is [value] when it was fulfilled (a rejected
    one writes no [value]). *)
Theorem last_settlement_wins
    (h : Hook) (i j : nat) (fi fj : Fetch) (ri rj : Settled JsVal) :
  in_flight h !! i = Some fi → reached h !! i = None →
  in_flight h !! j = Some fj → reached h !! j = None →
  i ≠ j →
  let h1 := settle i ri h in
  let h2 := settle j rj h1 in
  cells h2 = (resume fj rj (cells h1)).1 ∧
  isError (cells h2) =
    match rj with Fulfilled _ => false | Rejected _ => true end ∧
  error (cells h2) =
    match rj with
    | Fulfilled _ => JNull
    | Rejected err =>
        match stored_by_catch err with
        | Normal e => e
        | Throw _ => error (cells h1)
        end
    end ∧
  value (cells h2) =
    match rj with
    | Fulfilled result =>
        setState_value (nullish_coalesce result (captured_initialValue fj))
          (value (cells h1))
    | Rejected _ => value (cells h1)
    end.
Proof.
  intros Hi Hri Hj Hrj Hij h1 h2.
  destruct (settle_frame h i j ri (not_eq_sym Hij)) as (Hj1 & Hrj1 & _).
  fold h1 in Hj1, Hrj1. rewrite Hj in Hj1. rewrite Hrj in Hrj1.
  split; [exact (settle_cells h1 j fj rj Hj1 Hrj1)|].
  destruct rj as [result|err].
  - destruct (settle_fulfilled_cells h1 j fj result Hj1 Hrj1) as (Hv & He & Hr).
    by repeat split.
  - destruct (settle_rejected_cells h1 j fj err Hj1 Hrj1) as (Hv & He & Hr).
    by repeat split.
Qed.

(** ** The flags of [refresh] *)

(** Whatever reaction of a call is due, [settle] runs the chain to its
    end. *)
Lemma settle_flags (h : Hook) (i : nat) (f : Fetch) (r : Settled JsVal) :
  in_flight h !! i = Some f →
  isLoading (cells (settle i r h)) = false ∧
  isRefreshing (cells (settle i r h)) =
    match kind f with
    | Auto => isRefreshing (cells h)
    | Manual => false
    end.
Proof.
  intros Hi.
  destruct (reached h !! i) as [[p0|p1|p2]|] eqn:Hr;
    [unfold settle..|].
  - rewrite (resolve_settled h i _ r Hr), (react_then h i f p0 Hi Hr).
    match goal with
    | |- context [react i (react i ?h1)] =>
        rewrite (react_catch h1 i f _ Hi (advance_reached _ _ _ _))
    end.
    match goal with
    | |- context [react i ?h2] =>
        rewrite (react_finally h2 i f _ Hi (advance_reached _ _ _ _))
    end.
    destruct (kind f), p0 as [result|err];
      [|case_value err| |case_value err]; done.
  - rewrite (resolve_settled h i _ r Hr), (react_catch h i f p1 Hi Hr).
    match goal with
    | |- context [react i (react i ?h2)] =>
        rewrite (react_finally h2 i f _ Hi (advance_reached _ _ _ _))
    end.
    rewrite react_gone by apply finish_gone.
    destruct (kind f), p1 as [result|err];
      [|case_value err| |case_value err]; done.
  - rewrite (resolve_settled h i _ r Hr), (react_finally h i f p2 Hi Hr).
    rewrite !react_gone by (rewrite ?react_gone by apply finish_gone;
                            apply finish_gone).
    by destruct (kind f).
  - rewrite (settle_cells h i f r Hi Hr).
    destruct (kind f) eqn:Hk.
    + rewrite (resume_auto f r _ Hk).
      destruct r; by rewrite ?effect_resume_fulfilled, ?effect_resume_rejected.
    + rewrite (resume_manual f r _ Hk).
      destruct r; by rewrite ?refresh_resume_fulfilled, ?refresh_resume_rejected.
Qed.




(** ** Mounting *)


(** ** The error invariant *)


Lemma launch_error_kept (k : FetchKind) (h : Hook) :
  error_kept h →
  error_kept (launch k match k with
                       | Auto => effect_start
                       | Manual => refresh_start
                       end h).
Proof. intros [Hs Hst]. by destruct k. Qed.

Lemma resolve_error_kept (h : Hook) (i : nat) (r : Settled JsVal) :
  storable r = true → error_kept h → error_kept (resolve i r h).
Proof.
  intros Hr [Hs Hst]. unfold resolve.
  destruct (in_flight h !! i) as [f|]; [|done].
  destruct (reached h !! i) as [st|] eqn:Hi; [done|]. split; [done|].
  cbn. intros j st. destruct (decide (i = j)) as [->|Hne].
  - rewrite lookup_insert_eq. by intros [= <-].
  - rewrite lookup_insert_ne by done. apply Hst.
Qed.

Lemma advance_error_kept (h : Hook) (i : nat) (out : Screen * Settled JsVal)
    (next : Settled JsVal → Stage) :
  error_shape (now out.1) → stage_storable (next out.2) = true →
  error_kept h → error_kept (advance i out next h).
Proof.
  intros Hs Hn [_ Hst]. split; [done|].
  cbn. intros j st. destruct (decide (i = j)) as [->|Hne].
  - rewrite lookup_insert_eq. by intros [= <-].
  - rewrite lookup_insert_ne by done. apply Hst.
Qed.

Lemma react_error_kept (h : Hook) (i : nat) :
  error_kept h → error_kept (react i h).
Proof.
  intros Hk. pose proof Hk as [Hs Hst]. unfold react.
  destruct (in_flight h !! i) as [f|]; [|done].
  destruct (reached h !! i) as [[[v|err]|[v|err]|p2]|] eqn:Hr; [..|done].
  - apply advance_error_kept; [|done..].
    rewrite (proj2 (then_job_fulfilled _ _ _)). by left.
  - apply advance_error_kept; [done| |done]. apply (Hst i _ Hr).
  - by apply advance_error_kept.
  - pose proof (Hst i _ Hr) as Hok. cbn in Hok.
    destruct (stored_by_catch err) as [e|] eqn:He; [|done].
    destruct (stored_by_catch_Error err e He) as (Hinst & _ & _).
    apply advance_error_kept; [| |done].
    + rewrite (proj2 (catch_job_rejected _ _)), He. by right.
    + by rewrite (proj1 (catch_job_rejected _ _)), He.
  - split.
    + unfold finish. cbn [cells].
      rewrite (proj2 (finally_job_spec _ _ _)). exact Hs.
    + cbn. intros j st Hj. apply lookup_delete_Some in Hj as [_ Hj].
      by apply (Hst j).
Qed.

Lemma step_error_kept (h : Hook) (ev : Event) :
  storable_event ev = true → error_kept h → error_kept (step h ev).
Proof.
  intros Hev Hk. destruct ev as [ds opts| |i r|i r|i]; cbn in *.
  - unfold rerender. destruct (deps_equal (deps h) ds).
    + by destruct Hk.
    + apply (launch_error_kept Auto). by destruct Hk.
  - by apply (launch_error_kept Manual).
  - unfold settle. by do 3 apply react_error_kept; apply resolve_error_kept.
  - by apply resolve_error_kept.
  - by apply react_error_kept.
Qed.

Lemma run_error_kept (evs : list Event) (h : Hook) :
  forallb storable_event evs = true → error_kept h → error_kept (run h evs).
Proof.
  revert h. induction evs as [|ev evs IH]; intros h Hevs Hk; [done|].
  cbn in Hevs. apply andb_prop in Hevs as [Hev Hevs].
  apply (IH (step h ev) Hevs), step_error_kept; done.
Qed.

Lemma mount_error_kept (ds : list JsVal) (opts : option Options) :
  error_kept (mount ds opts).
Proof. split; [by left|]. cbn. intros i st. by rewrite lookup_empty. Qed.


(** ** Renders and the dependency array *)

Lemma deps_equal_refl (ds : list JsVal) : deps_equal ds ds = true.
Proof.
  induction ds as [|d ds IH]; [done|]. cbn. rewrite IH.
  unfold Object_is. by rewrite bool_decide_eq_true_2.
Qed.

Lemma deps_equal_differ (prev next : list JsVal) (i : nat) (p n : JsVal) :
  prev !! i = Some p → next !! i = Some n → p ≠ n →
  deps_equal prev next = false.
Proof.
  revert next i. induction prev as [|p0 prev IH]; intros [|n0 next] [|i] Hp Hn Hne;
    try done; cbn in *.
  - injection Hp as ->. injection Hn as ->.
    unfold Object_is. by rewrite bool_decide_eq_false_2.
  - rewrite (IH next i Hp Hn Hne). apply andb_false_r.
Qed.

Lemma rerender_same_deps (h : Hook) (opts : option Options) :
  rerender (deps h) opts h =
  {| cells := cells h; seen := seen h; deps := deps h; options := opts;
     in_flight := in_flight h; reached := reached h; calls := calls h;
     refreshed := refreshed h |}.
Proof. unfold rerender. by rewrite deps_equal_refl. Qed.

Lemma same_deps_renders (optss : list (option Options)) (h : Hook) :
  let h' := run h (map (Render (deps h)) optss) in
  calls h' = calls h ∧ in_flight h' = in_flight h ∧ cells h' = cells h ∧
  deps h' = deps h.
Proof.
  revert h. induction optss as [|opts optss IH]; intros h; [done|].
  cbn. rewrite rerender_same_deps.
  apply (IH {| cells := cells h; seen := seen h; deps := deps h;
               options := opts; in_flight := in_flight h;
               reached := reached h; calls := calls h;
               refreshed := refreshed h |}).
Qed.

(** X1: however many renders follow the mount with the same dependency
    array, and whatever [options] they pass, [func] has been called once,
    the same call is in flight and the cells are those of the mount. *)
Theorem same_deps_never_refetch
    (ds : list JsVal) (opts : option Options) (optss : list (option Options)) :
  let h := run (mount ds opts) (map (Render ds) optss) in
  calls h = 1 ∧
  in_flight h = in_flight (mount ds opts) ∧
  cells h = cells (mount ds opts).
Proof.
  destruct (same_deps_renders optss (mount ds opts)) as (Hc & Hf & Hs & _).
  by split_and!.
Qed.

(** X2: a render whose dependency array holds, at some position, a value
    other than the one the previous render had there runs the effect
    again: exactly one more call of [func], in flight with the
    [initialValue] of this render, [isLoading] set to [true], and the
    other cells left alone. *)
Theorem changed_dep_refetches
    (h : Hook) (ds : list JsVal) (opts : option Options)
    (i : nat) (p n : JsVal) :
  deps h !! i = Some p → ds !! i = Some n → p ≠ n →
  let h' := rerender ds opts h in
  calls h' = S (calls h) ∧
  in_flight h' =
    <[calls h := {| kind := Auto; captured_initialValue := initialValue opts |}]>
      (in_flight h) ∧
  isLoading (cells h') = true ∧
  value (cells h') = value (cells h) ∧
  isError (cells h') = isError (cells h) ∧
  error (cells h') = error (cells h) ∧
  isRefreshing (cells h') = isRefreshing (cells h).
Proof.
  intros Hp Hn Hne. cbn zeta. unfold rerender.
  by rewrite (deps_equal_differ (deps h) ds i p n Hp Hn Hne).
Qed.

Lemma rerender_keeps (h : Hook) (ds : list JsVal) (opts : option Options)
    (i : nat) :
  i < calls h →
  in_flight (rerender ds opts h) !! i = in_flight h !! i ∧
  reached (rerender ds opts h) = reached h ∧
  value (cells (rerender ds opts h)) = value (cells h).
Proof.
  intros Hlt. unfold rerender.
  destruct (deps_equal (deps h) ds); [done|]. cbn.
  split_and!; [|done..]. rewrite lookup_insert_ne; [done|lia].
Qed.

(** X3: the fallback for a [null] or [undefined] result is the
    [initialValue] of the render that made the call: a render with other
    [options] while the promise of the call is pending does not change
    what the [.then] reaction hands to [setValue] (which stores it, or
    what it returns when called with the previous [value] if it is a
    function). *)
Theorem fallback_is_initialValue_of_call
    (h : Hook) (i : nat) (f : Fetch)
    (ds : list JsVal) (opts : option Options) (result : JsVal) :
  in_flight h !! i = Some f → reached h !! i = None → i < calls h →
  value (cells (settle i (Fulfilled result) (rerender ds opts h))) =
  setState_value
    match result with
    | JNull | JUndefined => captured_initialValue f
    | _ => result
    end
    (value (cells h)).
Proof.
  intros Hi Hr Hlt.
  destruct (rerender_keeps h ds opts i Hlt) as (Hi' & Hr' & Hv).
  rewrite Hi in Hi'. rewrite <- Hr' in Hr.
  destruct (settle_fulfilled_cells _ i f result Hi' Hr) as (-> & _).
  rewrite Hv. by destruct result.
Qed.

(** ** More on the flags *)

(** X4: when a fetch made by the effect settles, fulfilled or rejected,
    [isLoading] becomes [false] whatever else is in flight, [isRefreshing]
    stays as it was, and every other call stays in flight: a pending
    [refresh()] keeps its flag but loses [isLoading]. *)
Theorem effect_settlement_flags
    (h : Hook) (i : nat) (f : Fetch) (r : Settled JsVal) :
  in_flight h !! i = Some f →
  kind f = Auto →
  isLoading (cells (settle i r h)) = false ∧
  isRefreshing (cells (settle i r h)) = isRefreshing (cells h) ∧
  ∀ j, j ≠ i → in_flight (settle i r h) !! j = in_flight h !! j.
Proof.
  intros Hi Hk. destruct (settle_flags h i f r Hi) as (-> & ->).
  rewrite Hk. split_and!; [done..|].
  intros j Hne. by apply settle_frame.
Qed.

Lemma launch_flags_backed (k : FetchKind) (before : Eff unit) (h : Hook) :
  flags_backed h →
  (isRefreshing (now (before (screen h)).1) = true →
   k = Manual ∨ isRefreshing (cells h) = true) →
  flags_backed (launch k before h).
Proof.
  intros (Hkeys & _ & Hman) Hbefore. split_and!; cbn.
  - intros i Hi. destruct (decide (i = calls h)) as [->|Hne]; [lia|].
    rewrite lookup_insert_ne in Hi by done. specialize (Hkeys i Hi). lia.
  - intros _. exists (calls h). by rewrite lookup_insert_eq.
  - intros Hr. destruct (Hbefore Hr) as [->|Hr'].
    + eexists _, _. by rewrite lookup_insert_eq.
    + destruct (Hman Hr') as (j & f & Hj & Hk). exists j, f. split; [|done].
      rewrite lookup_insert_ne; [done|].
      assert (j < calls h) by (apply Hkeys; by rewrite Hj). lia.
Qed.

Lemma react_flags_backed (h : Hook) (i : nat) :
  flags_backed h → flags_backed (react i h).
Proof.
  intros Hb. pose proof Hb as (Hkeys & Hload & Hman). unfold react.
  destruct (in_flight h !! i) as [f|] eqn:Hi; [|done].
  destruct (reached h !! i) as [[p0|p1|p2]|] eqn:Hr; [..|done].
  - split_and!; unfold advance; cbn [cells in_flight calls]; [done|..].
    + by rewrite (proj1 (then_job_flags _ _ _)).
    + by rewrite (proj2 (then_job_flags _ _ _)).
  - split_and!; unfold advance; cbn [cells in_flight calls]; [done|..].
    + by rewrite (proj1 (catch_job_flags _ _)).
    + by rewrite (proj2 (catch_job_flags _ _)).
  - split_and!; unfold finish; cbn [cells in_flight calls].
    + intros j Hj. apply Hkeys.
      destruct (decide (i = j)) as [->|Hne]; [by rewrite Hi|].
      by rewrite lookup_delete_ne in Hj.
    + by rewrite (proj2 (finally_job_spec _ _ _)).
    + rewrite (proj2 (finally_job_spec _ _ _)). cbn.
      destruct (kind f) eqn:Hk; [|done]. intros Hr'.
      destruct (Hman Hr') as (j & f' & Hj & Hk'). exists j, f'. split; [|done].
      rewrite lookup_delete_ne; [done|]. intros ->. congruence.
Qed.

Lemma resolve_flags_backed (h : Hook) (i : nat) (r : Settled JsVal) :
  flags_backed h → flags_backed (resolve i r h).
Proof.
  unfold flags_backed.
  by destruct (resolve_frame h i r) as (-> & _ & -> & _ & -> & _).
Qed.

Lemma step_flags_backed (h : Hook) (ev : Event) :
  flags_backed h → flags_backed (step h ev).
Proof.
  intros Hb. destruct ev as [ds opts| |i r|i r|i]; cbn.
  - unfold rerender. destruct (deps_equal (deps h) ds); [done|].
    apply launch_flags_backed; [done|]. cbn. by right.
  - apply launch_flags_backed; [done|]. by left.
  - unfold settle. by do 3 apply react_flags_backed; apply resolve_flags_backed.
  - by apply resolve_flags_backed.
  - by apply react_flags_backed.
Qed.

Lemma mount_flags_backed (ds : list JsVal) (opts : option Options) :
  flags_backed (mount ds opts).
Proof.
  split_and!; cbn.
  - intros i Hi. destruct (decide (i = 0)) as [->|Hne]; [lia|].
    rewrite lookup_insert_ne in Hi by done. by destruct Hi.
  - intros _. exists 0. by rewrite lookup_insert_eq.
  - done.
Qed.

Lemma run_flags_backed (evs : list Event) (h : Hook) :
  flags_backed h → flags_backed (run h evs).
Proof.
  revert h. induction evs as [|ev evs IH]; intros h Hb; [done|].
  apply (IH (step h ev)), step_flags_backed, Hb.
Qed.

(** X5: after the mount and any renders, calls of [refresh] and
    settlements, once no call of [func] is in flight [isLoading] and
    [isRefreshing] are both [false]: no flag stays up on its own. *)
Theorem idle_flags_down
    (ds : list JsVal) (opts : option Options) (evs : list Event) :
  in_flight (run (mount ds opts) evs) = ∅ →
  isLoading (cells (run (mount ds opts) evs)) = false ∧
  isRefreshing (cells (run (mount ds opts) evs)) = false.
Proof.
  intros Hidle.
  destruct (run_flags_backed evs _ (mount_flags_backed ds opts))
    as (_ & Hload & Hman).
  split.
  - destruct (isLoading _); [|done].
    destruct Hload as (i & Hi); [done|]. rewrite Hidle, lookup_empty in Hi.
    by destruct Hi.
  - destruct (isRefreshing _); [|done].
    destruct Hman as (i & f & Hi & _); [done|].
    by rewrite Hidle, lookup_empty in Hi.
Qed.

(** ** The shape of [error] *)

(** X6: after the mount and any renders, calls of [refresh], settlements
    and single reactions, as long as every value a producer rejects with
    is an [Error] or a value that [String] converts: when [isError] is
    [true] the [error] cell holds an instance of [Error], so that
    [error.message] can be read; when [isError] is [false] it holds
    [null]. *)
Theorem error_is_Error_when_isError
    (ds : list JsVal) (opts : option Options) (evs : list Event) :
  forallb storable_event evs = true →
  let s := cells (run (mount ds opts) evs) in
  if isError s
  then instanceof_Error (error s) = true ∧ is_Some (message_of (error s))
  else error s = JNull.
Proof.
  intros Hevs. cbn zeta.
  destruct (run_error_kept evs (mount ds opts) Hevs (mount_error_kept ds opts))
    as [[[-> He]|[-> He]] _]; [done|].
  split; [done|]. by destruct (error _).
Qed.

(** ** What only a reaction can change *)

Lemma quiet_step_frame (h : Hook) (ev : Event) :
  is_settlement ev = false →
  value (cells (step h ev)) = value (cells h) ∧
  isError (cells (step h ev)) = isError (cells h) ∧
  error (cells (step h ev)) = error (cells h).
Proof.
  intros Hev. destruct ev as [ds opts| |i r|i r|i]; [| |done| |done]; cbn.
  - unfold rerender. by destruct (deps_equal (deps h) ds).
  - done.
  - by destruct (resolve_frame h i r) as (-> & _).
Qed.

(** X7: renders and calls of [refresh], in any number and order, leave
    [value], [isError] and [error] as they are: starting a fetch does not
    clear the error or the value of the previous one, only a settlement
    writes them. *)
Theorem only_settlements_write_result (h : Hook) (evs : list Event) :
  quiet evs = true →
  value (cells (run h evs)) = value (cells h) ∧
  isError (cells (run h evs)) = isError (cells h) ∧
  error (cells (run h evs)) = error (cells h).
Proof.
  revert h. induction evs as [|ev evs IH]; intros h Hq; [done|].
  cbn in Hq. apply andb_prop in Hq as [Hev Hq]. apply negb_true_iff in Hev.
  destruct (quiet_step_frame h ev Hev) as (Hv & He & Hr).
  destruct (IH (step h ev) Hq) as (Hv' & He' & Hr').
  change (run h (ev :: evs)) with (run (step h ev) evs).
  by rewrite Hv', He', Hr'.
Qed.

End Facts.

(** ** The theorems at work, and where the claims as stated stop *)

Section Witnesses.
#[local] Existing Instance sample_functions.



(** C3 as stated fails when the two promises settle in one task: call 0
    is rejected, then call 1 is fulfilled, and the reactions run in the
    order of the job queue.  The [.catch] reaction of call 0 runs after the
    [.then] reaction of call 1, so [isError] and [error] end up as call 0
    wrote them, though call 1 settled last. *)
Lemma same_task_counterexample :
  let h := run (rerender [JStr "2"] None (mount [JStr "1"] None))
             [Resolve 0 (Rejected (JStr "boom")); Resolve 1 (Fulfilled (JStr "new"));
              React 0; React 1; React 0; React 1; React 0; React 1] in
  in_flight h = ∅ ∧ value (cells h) = JStr "new" ∧
  isError (cells h) = true ∧ error (cells h) = new_Error "boom".
Proof. cbn zeta. split_and!; by vm_compute. Qed.

(** Two effect runs overlap after the dependencies changed; the call made
    first settles last, in a task of its own, and its result is the one
    that shows. *)
Lemma last_settlement_wins_witness :
  let h := rerender [JStr "2"] None (mount [JStr "1"] None) in
  let h2 := settle 0 (Fulfilled (JStr "old")) (settle 1 (Fulfilled (JStr "new")) h) in
  in_flight h !! 1 = Some {| kind := Auto; captured_initialValue := JUndefined |} ∧
  in_flight h !! 0 = Some {| kind := Auto; captured_initialValue := JUndefined |} ∧
  value (cells h2) = JStr "old" ∧ error (cells h2) = JNull.
Proof.
  pose proof
    (last_settlement_wins (rerender [JStr "2"] None (mount [JStr "1"] None)) 1 0
       {| kind := Auto; captured_initialValue := JUndefined |}
       {| kind := Auto; captured_initialValue := JUndefined |}
       (Fulfilled (JStr "new")) (Fulfilled (JStr "old"))
       eq_refl eq_refl eq_refl eq_refl ltac:(done)) as (_ & _ & He & Hv).
  split; [reflexivity|]. split; [reflexivity|]. split; [exact Hv | exact He].
Defined.

(** The same with a [refresh()] during the fetch of the mount: the mount's
    fetch fails last and its error replaces the success of the refresh. *)
Example refresh_then_mount_failure :
  let h := run (mount [] None)
             [Refresh; Settle 1 (Fulfilled (JStr "fresh")); Settle 0 (Rejected (JStr "boom"))] in
  value (cells h) = JStr "fresh" ∧ isError (cells h) = true ∧
  error (cells h) = new_Error "boom".
Proof. by vm_compute. Qed.



(** Likewise for [isRefreshing] with two calls of [refresh()]: the first to
    settle clears the flag while the other is pending. *)
Example two_refreshes_first_settled :
  let h := run (mount [] None) [Refresh; Refresh; Settle 1 (Fulfilled JNull)] in
  in_flight h !! 2 = Some {| kind := Manual; captured_initialValue := JUndefined |} ∧
  isRefreshing (cells h) = false.
Proof. by vm_compute. Qed.



(** It also fails between the two setter calls of an ordinary [.catch]
    reaction, which a render shows when state updates are not batched. *)
Example isError_before_error :
  let h := settle 0 (Rejected (JStr "boom")) (mount [] None) in
  error_consistent (cells h) ∧
  ∃ s, seen h !! 2 = Some s ∧ isError s = true ∧ error s = JNull.
Proof. cbn zeta. split; [done|]. eexists. by split_and!. Qed.


Lemma changed_dep_refetches_witness :
  let h := mount [JStr "a"; JStr "1"] None in
  let h' := rerender [JStr "a"; JStr "2"] None h in
  calls h' = 2 ∧ isLoading (cells h') = true.
Proof.
  destruct (changed_dep_refetches (mount [JStr "a"; JStr "1"] None)
              [JStr "a"; JStr "2"] None 1 (JStr "1") (JStr "2")
              eq_refl eq_refl ltac:(done)) as (Hc & _ & Hl & _).
  split; [exact Hc | exact Hl].
Defined.

Lemma fallback_is_initialValue_of_call_witness :
  let o1 := Some {| opt_initialValue := JStr "first"; opt_loadingTrueAtStart := None |} in
  let o2 := Some {| opt_initialValue := JStr "second"; opt_loadingTrueAtStart := None |} in
  value (cells (settle 0 (Fulfilled JNull) (rerender [] o2 (mount [] o1)))) =
  JStr "first".
Proof.
  exact (fallback_is_initialValue_of_call
           (mount [] (Some {| opt_initialValue := JStr "first";
                              opt_loadingTrueAtStart := None |}))
           0 {| kind := Auto; captured_initialValue := JStr "first" |}
           [] (Some {| opt_initialValue := JStr "second";
                       opt_loadingTrueAtStart := None |})
           JNull eq_refl eq_refl ltac:(cbn; lia)).
Defined.

Lemma effect_settlement_flags_witness :
  let h := refresh (mount [] None) in
  let h' := settle 0 (Fulfilled (JStr "x")) h in
  isLoading (cells h') = false ∧ isRefreshing (cells h') = true ∧
  in_flight h' !! 1 = Some {| kind := Manual; captured_initialValue := JUndefined |}.
Proof.
  destruct (effect_settlement_flags (refresh (mount [] None)) 0
              {| kind := Auto; captured_initialValue := JUndefined |}
              (Fulfilled (JStr "x")) eq_refl eq_refl) as (Hl & Hr & Hf).
  split; [exact Hl|]. split; [exact Hr|].
  exact (Hf 1 ltac:(done)).
Defined.

Lemma idle_flags_down_witness :
  let evs := [Refresh; Settle 0 (Rejected JNull); Render [JStr "d"] None;
              Settle 1 (Fulfilled JNull)] in
  let h := run (mount [] None) evs in
  in_flight h = ∅ ∧ isLoading (cells h) = false ∧ isRefreshing (cells h) = false.
Proof.
  cbn zeta. split; [by vm_compute|].
  apply (idle_flags_down [] None); by vm_compute.
Defined.

Lemma error_is_Error_when_isError_witness :
  let evs := [Resolve 0 (Rejected (JBool true)); React 0; React 0] in
  let s := cells (run (mount [] None) evs) in
  forallb storable_event evs = true ∧
  instanceof_Error (error s) = true ∧ is_Some (message_of (error s)).
Proof.
  split; [reflexivity|].
  exact (error_is_Error_when_isError [] None
           [Resolve 0 (Rejected (JBool true)); React 0; React 0] eq_refl).
Defined.

Lemma only_settlements_write_result_witness :
  let h := settle 0 (Rejected (JStr "boom")) (mount [JStr "1"] None) in
  let evs := [Refresh; Render [JStr "2"] None] in
  quiet evs = true ∧
  isError (cells (run h evs)) = true ∧
  error (cells (run h evs)) = new_Error "boom".
Proof.
  cbn zeta. split; [reflexivity|].
  destruct (only_settlements_write_result
              (settle 0 (Rejected (JStr "boom")) (mount [JStr "1"] None))
              [Refresh; Render [JStr "2"] None] eq_refl) as (_ & He & Hr).
  split; [exact He | exact Hr].
Defined.

End Witnesses.

End AsyncStateEffectFacts.

(** * Properties of [useAsyncAction] *)

Module AsyncActionFacts.
Import AsyncAction.

(** Every way through [run]: the callbacks present or not, returning or
    throwing, the caught value an [Error] or not. *)
Local Ltac run_cases c :=
  destruct c as [? [[[[[]|?]|] [?|]]|]];
  cbv -[instanceof_Error app];
  repeat match goal with
    | |- context [instanceof_Error ?e] =>
        is_var e; destruct e; cbv -[app]
    end;
  repeat match goal with
    | |- context [?cb ?arg] =>
        is_var cb;
        match type of (cb arg) with
        | Completion unit =>
            destruct (cb arg) as [[]|?]; cbv -[app]
        end
    end.

Section Facts.
Context `{!Functions}.

(** ** One invocation of [run], case by case *)

Section Run.
Variables (c : Closure) (w : World).

Lemma run_rejected_no_onError (err : JsVal) :
  onError_of (closure_options c) = None →
  run c (Rejected err) w =
  (after w (data (cells w)) (stored_error err) [console_error err],
   Fulfilled {| result_data := JNull; result_error := err |}).
Proof.
  intros Hcb. unfold run, run_resume, call_onError. rewrite Hcb.
  by destruct err.
Qed.

Lemma run_rejected_onError (err : JsVal) (cb : JsVal → Completion unit) :
  onError_of (closure_options c) = Some cb →
  run c (Rejected err) w =
  (after w (data (cells w)) (stored_error err)
     [console_error err; called_onError (closure_error c)],
   match cb (closure_error c) with
   | Normal _ => Fulfilled {| result_data := JNull; result_error := err |}
   | Throw thrown => Rejected thrown
   end).
Proof.
  intros Hcb. unfold run, run_resume, call_onError, after. rewrite Hcb.
  destruct err; cbn; destruct (cb (closure_error c));
    cbn; by rewrite <- ?app_assoc.
Qed.

Lemma run_fulfilled_no_onComplete (result : JsVal) :
  onComplete_of (closure_options c) = None →
  run c (Fulfilled result) w =
  (after w (setState_value result (data (cells w))) JNull [],
   Fulfilled {| result_data := result; result_error := JNull |}).
Proof.
  intros Hcb. unfold run, run_resume, call_onComplete, after. rewrite Hcb.
  cbn. by rewrite app_nil_r.
Qed.

Lemma run_fulfilled_onComplete (result : JsVal) :
  onComplete_of (closure_options c) = Some (Normal tt) →
  run c (Fulfilled result) w =
  (after w (setState_value result (data (cells w))) JNull [called_onComplete],
   Fulfilled {| result_data := result; result_error := JNull |}).
Proof.
  intros Hcb. unfold run, run_resume, call_onComplete. by rewrite Hcb.
Qed.

End Run.

(** ** The stored error *)

Lemma run_error_cell (c : Closure) (err : JsVal) (w : World) :
  error (cells (run c (Rejected err) w).1) = stored_error err.
Proof.
  destruct (onError_of (closure_options c)) as [cb|] eqn:Hcb.
  - by rewrite (run_rejected_onError c w err cb Hcb).
  - by rewrite (run_rejected_no_onError c w err Hcb).
Qed.


(** ** The argument of [onError] *)

(** C9: when [fn] fails, [onError] is called once, after the [setError] of
    the [catch] block, with the [error] that the closure of [run] holds,
    which is the [error] cell as the render that created this [run] read
    it; the value caught in this invocation goes to the console and to the
    cell, not to the callback. *)
Theorem onError_gets_closure_error
    (s : State) (before : JsVal) (onC : option (Completion unit))
    (cb : JsVal → Completion unit) (err : JsVal) (w : World) :
  let opts := Some {| onComplete := onC; onError := Some cb |} in
  let c := {| closure_error := before; closure_options := opts |} in
  closure_error (render opts s) = error s ∧
  trace (run c (Rejected err) w).1 =
    (trace w ++ [console_error err; called_onError before])%list ∧
  error (cells (run c (Rejected err) w).1) = stored_error err.
Proof.
  intros opts c. split; [reflexivity|].
  by rewrite (run_rejected_onError c w err cb eq_refl).
Qed.

(** ** The promise of [run] *)

(** C10, amended: the promise of [run] is fulfilled with
    [{data: result, error: null}] when [fn] gives [result] and
    [onComplete], if any, returns.  When [fn] fails with [e], and also when
    [onComplete] throws [e], [onError] is called if there is one: if it
    returns, or there is none, the promise is fulfilled with
    [{data: null, error: e}], [e] as it was thrown, whereas the [error]
    cell holds it wrapped unless it is an [Error]; if it throws, the
    promise is rejected with what it threw.  An [onError] that would throw
    does no harm as long as it is not called. *)
Theorem run_promise (c : Closure) (r : Settled JsVal) (w : World) :
  let failed (e : JsVal) : Settled Result :=
    match onError_of (closure_options c) with
    | None => Fulfilled {| result_data := JNull; result_error := e |}
    | Some cb =>
        match cb (closure_error c) with
        | Normal _ => Fulfilled {| result_data := JNull; result_error := e |}
        | Throw thrown => Rejected thrown
        end
    end in
  (run c r w).2 =
    match r with
    | Fulfilled result =>
        match onComplete_of (closure_options c) with
        | Some (Throw e) => failed e
        | _ => Fulfilled {| result_data := result; result_error := JNull |}
        end
    | Rejected e => failed e
    end ∧
  ∀ e, r = Rejected e → error (cells (run c r w).1) = stored_error e.
Proof.
  split.
  - destruct r; run_cases c; reflexivity.
  - intros e ->. apply run_error_cell.
Qed.

(** ** The cells after [run] *)

(** X8: when [run] is over, [isLoading] is [false]: whether [fn] succeeded
    or failed, whether or not the callbacks threw, and from whatever cells
    the invocation resumed (another invocation may still be pending). *)
Theorem run_clears_isLoading (c : Closure) (r : Settled JsVal) (w : World) :
  isLoading (cells (run_resume c r w).1) = false ∧
  isLoading (cells (run c r w).1) = false.
Proof. split; destruct r; run_cases c; reflexivity. Qed.


(** X10: when [fn] succeeds, [run] hands its result to [setData] as it is
    ([null] and [undefined] included), whatever the callbacks do: [data]
    becomes the result, or what the result returns when called with the
    previous [data] if it is a function.  The success path does not write
    [error]: it is left as it was when the invocation resumed, unless
    [onComplete] threw, in which case it holds what [onComplete] threw,
    wrapped unless it is an [Error].  When nothing ran between the call
    and its resumption, [error] was set to [null] by the call. *)
Theorem successful_run_cells (c : Closure) (result : JsVal) (w : World) :
  data (cells (run_resume c (Fulfilled result) w).1) =
    setState_value result (data (cells w)) ∧
  error (cells (run_resume c (Fulfilled result) w).1) =
    match onComplete_of (closure_options c) with
    | Some (Throw thrown) => stored_error thrown
    | _ => error (cells w)
    end ∧
  data (cells (run c (Fulfilled result) w).1) =
    setState_value result (data (cells w)) ∧
  error (cells (run c (Fulfilled result) w).1) =
    match onComplete_of (closure_options c) with
    | Some (Throw thrown) => stored_error thrown
    | _ => JNull
    end.
Proof. split_and!; run_cases c; reflexivity. Qed.

(** X11: the calls [run] makes, in order.  When [fn] fails: [console.error]
    with the caught value, then [onError] if there is one; [onComplete] is
    not called.  When [fn] succeeds: [onComplete] if there is one, and
    nothing else unless it throws, in which case what it threw goes to
    [console.error] and [onError] is called as for a failure of [fn]. *)
Theorem run_calls (c : Closure) (r : Settled JsVal) (w : World) :
  trace (run c r w).1 =
    (trace w ++
     match r with
     | Rejected err => console_error err :: onError_calls c
     | Fulfilled _ =>
         match onComplete_of (closure_options c) with
         | None => []
         | Some (Normal _) => [called_onComplete]
         | Some (Throw thrown) =>
             called_onComplete :: console_error thrown :: onError_calls c
         end
     end)%list.
Proof.
  destruct r; run_cases c; rewrite <- ?app_assoc, ?app_nil_r; reflexivity.
Qed.

(** X12: without [options], [run] calls no callback and its promise is
    always fulfilled: with the result and [null], or with [null] and the
    caught value after logging it. *)
Theorem run_without_options (before : JsVal) (r : Settled JsVal) (w : World) :
  run {| closure_error := before; closure_options := None |} r w =
  match r with
  | Fulfilled result =>
      (after w (setState_value result (data (cells w))) JNull [],
       Fulfilled {| result_data := result; result_error := JNull |})
  | Rejected err =>
      (after w (data (cells w)) (stored_error err) [console_error err],
       Fulfilled {| result_data := JNull; result_error := err |})
  end.
Proof.
  destruct r as [result|err].
  - by rewrite run_fulfilled_no_onComplete.
  - by rewrite run_rejected_no_onError.
Qed.

(** ** The shape of [error] *)

Lemma stored_error_is_Error (err : JsVal) :
  instanceof_Error (stored_error err) = true.
Proof. by destruct err. Qed.

Lemma run_resume_error (c : Closure) (r : Settled JsVal) (w : World) :
  error (cells (run_resume c r w).1) = error (cells w) ∨
  ∃ err, error (cells (run_resume c r w).1) = stored_error err.
Proof.
  destruct r; run_cases c;
    first [left; reflexivity | right; eexists (JError _ _); reflexivity].
Qed.

Lemma play_error_shape (evs : list Event) (w : World) :
  error (cells w) = JNull ∨ instanceof_Error (error (cells w)) = true →
  error (cells (play w evs)) = JNull ∨
  instanceof_Error (error (cells (play w evs))) = true.
Proof.
  revert w. induction evs as [|ev evs IH]; intros w Hw; [done|].
  apply (IH (step w ev)). destruct ev as [|c r]; cbn.
  - by left.
  - destruct (run_resume_error c r w) as [->|[err ->]]; [done|].
    right. apply stored_error_is_Error.
Qed.

(** X13: after the first render and any invocations of [run], overlapping
    or not, with any closures and outcomes, the [error] cell holds [null]
    or an instance of [Error]: when [isError] is [true], [error.message]
    can be read, and when it is [false], [error] is [null]. *)
Theorem action_error_is_Error (evs : list Event) :
  let s := cells (play mounted evs) in
  if isError s
  then instanceof_Error (error s) = true ∧ is_Some (message_of (error s))
  else error s = JNull.
Proof.
  cbn zeta. unfold isError.
  destruct (play_error_shape evs mounted) as [->|He]; [by left|done|].
  by destruct (error _).
Qed.

End Facts.

(** ** The theorems at work, and where the claims as stated stop *)

Section Witnesses.
#[local] Existing Instance sample_functions.


(** Scenario E of the specification, for the effect. *)
Example effect_boom :
  let s := AsyncStateEffect.effect_resume JUndefined (Rejected (JStr "boom"))
             (AsyncStateEffect.first_render None) in
  AsyncStateEffect.isError s = true ∧
  message_of (AsyncStateEffect.error s) = Some "boom".
Proof. by vm_compute. Qed.

(** A first failure hands [null] to [onError]; after the next render, a
    second failure hands it the error of the first. *)
Example onError_one_failure_late :
  let opts := Some {| onComplete := None; onError := Some (fun _ => Normal tt) |} in
  let w0 := {| cells := first_render; trace := [] |} in
  let w1 := (run (render opts (cells w0)) (Rejected (JStr "first")) w0).1 in
  let w2 := (run (render opts (cells w1)) (Rejected (JError "TypeError" "second")) w1).1 in
  trace w2 =
    [console_error (JStr "first"); called_onError JNull;
     console_error (JError "TypeError" "second");
     called_onError (new_Error "Unknown error occurred.")] ∧
  error (cells w2) = JError "TypeError" "second".
Proof. by vm_compute. Qed.

(** C10 as stated fails when [onError] throws: the exception leaves the
    [catch] block and the promise of [run] is rejected with it. *)
Lemma run_rejects_counterexample :
  let opts := Some {| onComplete := None;
                      onError := Some (fun _ => Throw (new_Error "handler failed")) |} in
  let w := {| cells := first_render; trace := [] |} in
  (run (render opts first_render) (Rejected (JStr "boom")) w).2 =
  Rejected (new_Error "handler failed").
Proof. reflexivity. Qed.

(** A success during which another invocation failed: [error] is not
    [null] afterwards. *)
Example success_after_other_failure :
  let c := render None first_render in
  let w := play mounted [Invoke; Invoke; Resume c (Rejected (JStr "boom"));
                         Resume c (Fulfilled (JStr "ok"))] in
  data (cells w) = JStr "ok" ∧
  error (cells w) = new_Error "Unknown error occurred.".
Proof. by vm_compute. Qed.

End Witnesses.

End AsyncActionFacts.

(** * Properties of [useAsyncStatus] *)

Module AsyncStatusFacts.
Import AsyncStatus.

(** X14: [run] raises [isLoading] before it calls [fn]; when the promise of
    [fn] settles, [isLoading] is [false] and the promise of [run] settles
    the same way: fulfilled with the same result, or rejected with the
    same value, which is not caught. *)
Theorem run_passes_outcome_through (r : Settled JsVal) (s : State) :
  isLoading (run_call s).1 = true ∧
  isLoading (run_resume r s).1 = false ∧
  async_result (run_resume r s).2 = r ∧
  run r s = ({| isLoading := false |}, r).
Proof. by destruct r. Qed.

End AsyncStatusFacts.
